(** * parallel-kd-tree: process topology, driver and finalisation

    A shallow embedding of the three C++ sources of the repository:
    - the process-utilities header ([compute_max_depth],
      [compute_n_surplus_processes], [compute_next_process_rank]);
    - [KDTreeGreenhouse::finalize];
    - the driver [main] with its printing helpers [print_node] and
      [print].

    C++ [int] is modelled by [Z] with the two's-complement wrap-around of a
    32-bit word written out; a [double] is modelled by the real number it
    denotes, and the two [<math.h>] functions the header calls are an
    interface ([LibM]) with the accuracy a libm guarantees. *)

From Stdlib Require Import ZArith Reals Lia Lra Bool List Ascii String.
Import ListNotations.

Local Open Scope Z_scope.

(** ** 32-bit [int] *)

Definition INT_MIN : Z := - 2 ^ 31.
Definition INT_MAX : Z := 2 ^ 31 - 1.

Definition is_int (z : Z) : Prop := INT_MIN <= z <= INT_MAX.

(** Two's-complement reduction of a mathematical result into [int]. *)
Definition wrap (z : Z) : Z := (z + 2 ^ 31) mod 2 ^ 32 - 2 ^ 31.

Definition int_add (a b : Z) : Z := wrap (a + b).
Definition int_sub (a b : Z) : Z := wrap (a - b).
Definition int_mul (a b : Z) : Z := wrap (a * b).

(** A C++ [bool] used as an arithmetic operand is promoted to 0 or 1. *)
Definition of_bool (b : bool) : Z := if b then 1 else 0.

(** ** [double] and the libm interface *)

(** [(double) n] for an [int] n is exact: every 32-bit integer is a double. *)
Definition int_to_double (n : Z) : R := IZR n.

(** [(int) x] truncates towards zero.  (The conversion is undefined in C++
    when the truncated value is not an [int]; the theorems below only
    convert values whose truncation is in range.) *)
Definition double_to_int (x : R) : Z :=
  if Rle_dec 0 x then Zfloor x else Zceil x.

(** Relative size of one unit in the last place of a normal double. *)
Definition double_ulp : R := (/ 2 ^ 52)%R.

(** What the header needs from [<math.h>].  [libm_log2] and [libm_pow] are
    the functions [log2] and [pow] on doubles.  A libm whose error stays
    below one unit in the last place satisfies the three laws: the relative
    error of [log2] is at most [double_ulp], and a result that is an
    integer (hence a double) is returned exactly. *)
Class LibM : Type := {
  libm_log2 : R -> R;
  libm_pow : R -> R -> R;
  libm_log2_accurate : forall x : R, (0 < x)%R ->
    (Rabs (libm_log2 x - ln x / ln 2) <= Rabs (ln x / ln 2) * double_ulp)%R;
  libm_log2_exact : forall (x : R) (k : Z), (0 < x)%R ->
    (ln x / ln 2)%R = IZR k -> libm_log2 x = IZR k;
  libm_pow_exact : forall (x y : R) (m : Z), (0 < x)%R ->
    Rpower x y = IZR m -> Z.abs m <= 2 ^ 53 -> libm_pow x y = IZR m
}.

(** The libm without rounding error: the interface is inhabited. *)
Definition exact_libm : LibM.
Proof.
  refine {| libm_log2 := fun x => (ln x / ln 2)%R; libm_pow := Rpower |}.
  - intros x _. unfold Rminus. rewrite Rplus_opp_r, Rabs_R0.
    apply Rmult_le_pos; [ apply Rabs_pos | ].
    unfold double_ulp. left. apply Rinv_0_lt_compat. apply pow_lt. lra.
  - intros x k _ H. exact H.
  - intros x y m _ H _. exact H.
Defined.

(** ** The process-utilities header *)

Section ProcessUtils.

Context {libm : LibM}.

(** [inline int compute_max_depth(int n_processes)].  For
    [n_processes <= 0] libm returns an infinity or a NaN and the
    conversion to [int] is undefined; the theorems take
    [1 <= n_processes]. *)
Definition compute_max_depth (n_processes : Z) : Z :=
  double_to_int (libm_log2 (int_to_double n_processes)).

(** [inline int compute_n_surplus_processes(int n_processes, int max_depth)] *)
Definition compute_n_surplus_processes (n_processes max_depth : Z) : Z :=
  int_sub n_processes
          (double_to_int (libm_pow 2 (int_to_double max_depth))).

(** The header calls [next_process_rank(next_depth)], a function it neither
    declares nor defines; it is a parameter here: any function of the one
    argument it is given. *)
Variable next_process_rank : Z -> Z.

(** [inline int compute_next_process_rank(int rank, int max_depth,
    int next_depth, int surpluss_processes, int n_processes)].
    The parameter list spells the fourth parameter [surpluss_processes]
    while the body reads [surplus_processes]; the body's name is taken to
    be that parameter. *)
Definition compute_next_process_rank
    (rank max_depth next_depth surplus_processes n_processes : Z) : Z :=
  int_add
    (int_mul (of_bool (next_depth <? int_add max_depth 1))
             (next_process_rank next_depth))
    (int_mul
       (int_mul (of_bool (next_depth =? int_add max_depth 1))
                (of_bool (rank <? surplus_processes)))
       (int_add (int_sub n_processes surplus_processes) rank)).

End ProcessUtils.

(** The rank of the coordinating worker: the driver tests [rank == 0]. *)
Definition coordinator_rank : Z := 0.

(** The ranks of a run with [n_processes] workers. *)
Definition valid_rank (n_processes rank : Z) : Prop :=
  0 <= rank < n_processes.

(** A pairing of the workers of a level, as the topology requires it: no
    worker is its own partner and no two workers have the same partner. *)
Definition perfect_matching (active : Z -> Prop) (partner : Z -> Z) : Prop :=
  (forall r, active r -> partner r <> r) /\
  (forall r1 r2, active r1 -> active r2 -> partner r1 = partner r2 -> r1 = r2).

(** ** Coordinates and the placeholder *)

(** [data_type] is declared in a header that is not among the sources; the
    driver stores [int] expressions in it and compares it with
    [std::numeric_limits<int>::min()], so it is [int] here. *)
Definition data_type : Type := Z.

(** Modelled from the spec: the constant [EMPTY_PLACEHOLDER], defined in a
    header that is not among the sources.  The spec makes the reserved
    value the numeric minimum of the coordinate type; [print_node] tests
    coordinates against [std::numeric_limits<int>::min()]. *)
Definition EMPTY_PLACEHOLDER : data_type := INT_MIN.

(** ** [KDTreeGreenhouse::finalize] *)

Section Greenhouse.

(** The class is declared in [kdtree.h], which is not among the sources.
    [finalize] names four members; the type of [serial_tree], the type
    [unpack_optional_array] returns and the remaining members are left
    open. *)
Variables SerialTree Unpacked Members : Type.

Record KDTreeGreenhouse : Type := mkGreenhouse {
  serial_tree : SerialTree;
  serial_tree_size : Z;
  n_components : Z;
  grown_kdtree_size : Z;
  other_members : Members
}.

(** [unpack_optional_array] is a free function declared elsewhere: here any
    function of its four arguments. *)
Variable unpack_optional_array : SerialTree -> Z -> Z -> data_type -> Unpacked.

(** [data_type *KDTreeGreenhouse::finalize()]: the returned array and the
    object after the call. *)
Definition finalize (g : KDTreeGreenhouse) : Unpacked * KDTreeGreenhouse :=
  let g' := {| serial_tree := serial_tree g;
               serial_tree_size := serial_tree_size g;
               n_components := n_components g;
               grown_kdtree_size := serial_tree_size g;
               other_members := other_members g |} in
  (unpack_optional_array (serial_tree g') (serial_tree_size g')
                         (n_components g') EMPTY_PLACEHOLDER,
   g').

End Greenhouse.

Arguments serial_tree {SerialTree Members} _.
Arguments serial_tree_size {SerialTree Members} _.
Arguments n_components {SerialTree Members} _.
Arguments grown_kdtree_size {SerialTree Members} _.
Arguments other_members {SerialTree Members} _.
Arguments mkGreenhouse {SerialTree Members} _ _ _ _ _.
Arguments finalize {SerialTree Unpacked Members} _ _.

(** ** Tree nodes *)

(** [KNode] is declared in a header that is not among the sources; the
    driver uses [get_data], [get_left] and [get_right].  A null child
    pointer is [None]. *)
#[warnings="-register-all"] Inductive KNode : Type :=
| mkKNode (data : list data_type) (left right : option KNode).

(** [node->get_data(i)].  A node carries one coordinate per dimension;
    an index past them is outside the array in C++ and reads 0 here. *)
Definition get_data (node : KNode) (i : Z) : data_type :=
  match node with
  | mkKNode data _ _ => nth (Z.to_nat i) data 0
  end.

Definition get_left (node : KNode) : option KNode :=
  match node with mkKNode _ l _ => l end.

Definition get_right (node : KNode) : option KNode :=
  match node with mkKNode _ _ r => r end.

(** ** The driver *)

(** What one [<<] writes to [std::cout]: a string literal or an [int]. *)
Inductive item : Type :=
| Text (s : string)
| Number (z : Z).

(** The loop of [print_node], [todo] iterations from index [i] on; the
    [break] ends the loop after ["n/a"]. *)
Fixpoint print_coordinates (todo : nat) (i : Z) (node : KNode) : list item :=
  match todo with
  | O => []
  | S todo' =>
      (if 0 <? i then [Text ","%string] else []) ++
      (if get_data node i =? INT_MIN
       then [Text "n/a"%string]
       else Number (get_data node i)
              :: print_coordinates todo' (int_add i 1) node)
  end.

(** [void print_node(KNode *node)].  [dims] is a variable the driver reads
    from its surroundings; it is an argument here. *)
Definition print_node (dims : Z) (node : KNode) : list item :=
  [Text "("%string] ++ print_coordinates (Z.to_nat dims) 0 node ++ [Text ")"%string].

(** [dt[i] = v].  A store outside the array is undefined: [None]. *)
Definition store (dt : list data_type) (i : Z) (v : data_type)
  : option (list data_type) :=
  if (0 <=? i) && (i <? Z.of_nat (List.length dt))
  then Some (firstn (Z.to_nat i) dt ++ v :: skipn (S (Z.to_nat i)) dt)
  else None.

(** The first loop of [main], [todo] iterations from index [i] on. *)
Fixpoint fill (todo : nat) (i : Z) (dt : list data_type)
  : option (list data_type) :=
  match todo with
  | O => Some dt
  | S todo' =>
      match store dt (int_mul i 2) (int_sub 9 i) with
      | None => None
      | Some dt1 =>
          match store dt1 (int_add (int_mul i 2) 1) (int_add 1 i) with
          | None => None
          | Some dt2 => fill todo' (int_add i 1) dt2
          end
      end
  end.

(** How far [main] gets: it calls [generate_kd_tree(dt, size, DIMS)]
    ([dt = None] is [nullptr]); or [new] throws on a negative length; or a
    store leaves the array. *)
Inductive outcome : Type :=
| calls_generate_kd_tree (dt : option (list data_type)) (size dims : Z)
| throws_bad_array_new_length
| undefined_store.

(** [main] up to its call of the builder, for any values of the macros
    [SIZE] and [DIMS] and the rank [MPI_Comm_rank] reports.  A negative
    length makes [new data_type[SIZE * DIMS]] throw
    [std::bad_array_new_length]; from C++14 on a negative constant length
    is ill-formed instead, and the theorems on other values of the macros
    take the length non-negative.  The cells of the new array are
    indeterminate until stored to; they start as 0 here.  The output under
    [DEBUG] and [TIME] is left out. *)
Definition main_with (SIZE DIMS rank : Z) : outcome :=
  if rank =? 0 then
    let n := int_mul SIZE DIMS in
    if n <? 0 then throws_bad_array_new_length
    else
      match fill (Z.to_nat SIZE) 0 (repeat 0 (Z.to_nat n)) with
      | None => undefined_store
      | Some dt => calls_generate_kd_tree (Some dt) SIZE DIMS
      end
  else calls_generate_kd_tree None SIZE DIMS.

(** [#define SIZE 6] and [#define DIMS 2] *)
Definition SIZE : Z := 6.
Definition DIMS : Z := 2.

Definition main (rank : Z) : outcome := main_with SIZE DIMS rank.

(** [std::endl], the new-line character. *)
Definition endl : item := Text (String (ascii_of_nat 10) EmptyString).

(** [void print(KNode *tree, int depth)], for a [tree] that is not null:
    the header with the depth, the node, and then each child that is not
    null after a line that names its parent.  The driver calls it under
    [DEBUG] as [print(tree, 0)]. *)
Fixpoint print (dims : Z) (tree : KNode) (depth : Z) : list item :=
  match tree with
  | mkKNode _ l r =>
      [Text "depth = "%string; Number depth; endl] ++
      print_node dims tree ++ [endl] ++
      match l with
      | Some child =>
          [Text "left node of "%string] ++ print_node dims tree ++
          [Text " -- "%string] ++ print dims child (int_add depth 1)
      | None => []
      end ++
      match r with
      | Some child =>
          [Text "right node of "%string] ++ print_node dims tree ++
          [Text " -- "%string] ++ print dims child (int_add depth 1)
      | None => []
      end
  end.

(** *** What is read off a tree and off an output *)

(** The coordinates a node carries. *)
Definition coordinates (node : KNode) : list data_type :=
  match node with mkKNode data _ _ => data end.

(** The nodes of a tree, and the depth of each in the order parent, left
    subtree, right subtree, counted in [int] from [depth] at the root. *)
Fixpoint n_nodes (tree : KNode) : nat :=
  match tree with
  | mkKNode _ l r =>
      S (match l with Some child => n_nodes child | None => 0 end +
         match r with Some child => n_nodes child | None => 0 end)
  end.

Fixpoint depths (tree : KNode) (depth : Z) : list Z :=
  match tree with
  | mkKNode _ l r =>
      depth ::
      match l with
      | Some child => depths child (int_add depth 1)
      | None => []
      end ++
      match r with
      | Some child => depths child (int_add depth 1)
      | None => []
      end
  end.

(** The level of each node, in the same order, counted in the integers
    from [level] at the root. *)
Fixpoint levels (tree : KNode) (level : Z) : list Z :=
  match tree with
  | mkKNode _ l r =>
      level ::
      match l with
      | Some child => levels child (level + 1)
      | None => []
      end ++
      match r with
      | Some child => levels child (level + 1)
      | None => []
      end
  end.

(** The numbers of an output, in the order they are written. *)
Definition numbers (out : list item) : list Z :=
  flat_map (fun it => match it with Number z => [z] | Text _ => [] end) out.

(** How often the text [s] is written. *)
Definition count_text (s : string) (out : list item) : nat :=
  List.length
    (filter (fun it => match it with
                       | Text s' => String.eqb s s'
                       | Number _ => false
                       end) out).

(** The numbers that follow a ["depth = "] in an output. *)
Fixpoint headers (out : list item) : list Z :=
  match out with
  | [] => []
  | it :: rest =>
      match it, rest with
      | Text s, Number d :: _ =>
          if String.eqb s "depth = " then d :: headers rest else headers rest
      | _, _ => headers rest
      end
  end.

(** The coordinates before the first one that is the reserved value. *)
Fixpoint before_placeholder (cs : list data_type) : list data_type :=
  match cs with
  | [] => []
  | c :: rest => if c =? INT_MIN then [] else c :: before_placeholder rest
  end.

(** The points the first loop of [main] writes, [todo] of them from index
    [i] on: point [i] is [(9 - i, 1 + i)]. *)
Fixpoint filled (todo : nat) (i : Z) : list data_type :=
  match todo with
  | O => []
  | S todo' => (9 - i) :: (1 + i) :: filled todo' (i + 1)
  end.

(** ** The serialised form *)

(** Modelled from the spec: [unpack_optional_array], declared in a header
    that is not among the sources.  The flat array has
    [n_datapoints * n_components] cells, and every absent position is
    filled with the reserved value it is given. *)
Definition unpack_optional_array (array : list (option data_type))
    (n_datapoints n_components : Z) (fallback : data_type)
  : list data_type :=
  map (fun cell => match cell with Some v => v | None => fallback end)
      (firstn (Z.to_nat (int_mul n_datapoints n_components)) array).

(** The builder object with its serial tree as an array of optional
    coordinates and the root of the live tree as its remaining member. *)
Definition greenhouse : Type :=
  KDTreeGreenhouse (list (option data_type)) (option KNode).

Inductive build_result : Type :=
| grown (g : greenhouse)
| rejected.

Section Build.

(** The construction on a non-empty point set (median split, hand-off
    between workers, packing) is left open, and so is the value of
    [grown_kdtree_size] before [finalize] sets it. *)
Variable grow_nonempty : Z -> list (list data_type) -> Z -> greenhouse.
Variable unset_size : Z.

(** Modelled from the spec: the build, which is not among the sources.
    Non-positive dims are rejected before any worker builds; an empty
    point set gives no node, an absent root, for any worker count, and is
    a success; the serialised form of the empty tree has no group. *)
Definition grow (n_processes : Z) (points : list (list data_type))
    (dims : Z) : build_result :=
  if dims <=? 0 then rejected
  else
    match points with
    | [] => grown {| serial_tree := [];
                     serial_tree_size := 0;
                     n_components := dims;
                     grown_kdtree_size := unset_size;
                     other_members := None |}
    | _ :: _ => grown (grow_nonempty n_processes points dims)
    end.

End Build.

(** The [i]-th group of [dims] coordinates of a flat sequence. *)
Definition group (flat : list data_type) (dims i : nat) : list data_type :=
  firstn dims (skipn (i * dims) flat).

(** Modelled from the spec: Unpack, which is not among the sources.  The
    groups are in level order, the children of group [i] being groups
    [2i+1] and [2i+2]; a group past the length, or one whose first
    coordinate is the reserved value, is absent and ends its branch. *)
Fixpoint unpack_at (fuel : nat) (flat : list data_type)
    (n_groups dims i : nat) : option KNode :=
  match fuel with
  | O => None
  | S fuel' =>
      if (i <? n_groups)%nat then
        match group flat dims i with
        | [] => None
        | x :: _ =>
            if x =? EMPTY_PLACEHOLDER then None
            else Some (mkKNode (group flat dims i)
                         (unpack_at fuel' flat n_groups dims (2 * i + 1))
                         (unpack_at fuel' flat n_groups dims (2 * i + 2)))
        end
      else None
  end.

Definition unpack (flat : list data_type) (n_groups dims : nat)
  : option KNode :=
  unpack_at n_groups flat n_groups dims 0.

(** Every node of the tree carries a first coordinate, and it is not the
    reserved value. *)
Fixpoint real_nodes (tree : KNode) : Prop :=
  match tree with
  | mkKNode data l r =>
      match data with
      | [] => False
      | x :: _ => x <> EMPTY_PLACEHOLDER
      end /\
      match l with Some child => real_nodes child | None => True end /\
      match r with Some child => real_nodes child | None => True end
  end.




(** ** Facts about [int] arithmetic *)

(** Goals that only need the bounds of [int] spelled out. *)
Ltac int_range := unfold is_int, INT_MIN, INT_MAX in *; lia.

Lemma wrap_small (z : Z) : is_int z -> wrap z = z.
Proof.
  unfold is_int, INT_MIN, INT_MAX, wrap. intros Hz.
  rewrite Z.mod_small; lia.
Qed.

Lemma wrap_is_int (z : Z) : is_int (wrap z).
Proof.
  unfold is_int, INT_MIN, INT_MAX, wrap.
  pose proof (Z.mod_pos_bound (z + 2 ^ 31) (2 ^ 32) ltac:(lia)). lia.
Qed.

Lemma int_mul_0_l (a : Z) : int_mul 0 a = 0.
Proof. unfold int_mul. rewrite Z.mul_0_l. reflexivity. Qed.

Lemma int_mul_0_r (a : Z) : int_mul a 0 = 0.
Proof. unfold int_mul. rewrite Z.mul_0_r. reflexivity. Qed.

Lemma int_mul_1_l (a : Z) : is_int a -> int_mul 1 a = a.
Proof. intros Ha. unfold int_mul. rewrite Z.mul_1_l. now apply wrap_small. Qed.

Lemma int_add_0_l (a : Z) : is_int a -> int_add 0 a = a.
Proof. intros Ha. unfold int_add. rewrite Z.add_0_l. now apply wrap_small. Qed.

(** ** Facts about the real logarithm *)

Section RealLog.
Local Open Scope R_scope.

Lemma ln2_pos : 0 < ln 2.
Proof. pose proof ln_lt_2. lra. Qed.

Lemma ln_le_pred (x : R) : 0 < x -> ln x <= x - 1.
Proof.
  intros Hx. pose proof (exp_ineq1_le (ln x)) as H.
  rewrite (exp_ln x Hx) in H. lra.
Qed.

Lemma ln2_le_1 : ln 2 <= 1.
Proof. pose proof (ln_le_pred 2 ltac:(lra)). lra. Qed.

Lemma ln_quot (x y : R) : 0 < x -> 0 < y -> ln (x / y) = ln x - ln y.
Proof.
  intros Hx Hy. unfold Rdiv.
  rewrite ln_mult by (auto using Rinv_0_lt_compat).
  rewrite ln_Rinv by assumption. lra.
Qed.

(** [ln y - ln x] is at least the relative gap [(y - x) / y]. *)
Lemma ln_gap (x y : R) : 0 < x -> 0 < y -> (y - x) / y <= ln y - ln x.
Proof.
  intros Hx Hy.
  assert (Hq : 0 < x / y) by (apply Rdiv_lt_0_compat; assumption).
  pose proof (ln_le_pred (x / y) Hq) as H.
  rewrite ln_quot in H by assumption.
  replace ((y - x) / y) with (1 - x / y) by (field; lra). lra.
Qed.

Lemma IZR_pow2 (k : Z) : (0 <= k)%Z -> IZR (2 ^ k) = 2 ^ Z.to_nat k.
Proof.
  intros Hk. rewrite pow_IZR. now rewrite Z2Nat.id.
Qed.

Lemma ln_IZR_pow2 (k : Z) : (0 <= k)%Z -> ln (IZR (2 ^ k)) = IZR k * ln 2.
Proof.
  intros Hk. rewrite IZR_pow2 by assumption.
  rewrite ln_pow by lra.
  rewrite INR_IZR_INZ. now rewrite Z2Nat.id.
Qed.

Lemma Rpower_2_IZR (k : Z) : (0 <= k)%Z -> Rpower 2 (IZR k) = IZR (2 ^ k).
Proof.
  intros Hk. rewrite IZR_pow2 by assumption.
  rewrite <- Rpower_pow by lra.
  rewrite INR_IZR_INZ. now rewrite Z2Nat.id.
Qed.

End RealLog.

(** ** Conversion of a double to [int] *)

Lemma double_to_int_IZR (z : Z) : double_to_int (IZR z) = z.
Proof.
  unfold double_to_int. destruct (Rle_dec 0 (IZR z)).
  - apply ZfloorZ.
  - unfold Zceil. rewrite ZfloorNZ. lia.
Qed.

Lemma double_to_int_floor (x : R) (k : Z) :
  0 <= k -> (IZR k <= x < IZR k + 1)%R -> double_to_int x = k.
Proof.
  intros Hk Hx. unfold double_to_int.
  destruct (Rle_dec 0 x) as [_ | Hneg].
  - now apply Zfloor_eq.
  - exfalso. apply Hneg. apply Rle_trans with (IZR k); [ | tauto ].
    now apply IZR_le.
Qed.

(** ** The truncated libm logarithm is the integer logarithm *)

Section MaxDepth.
Context {libm : LibM}.
Local Open Scope R_scope.

Lemma Rabs_bound (x a : R) : Rabs x <= a -> - a <= x <= a.
Proof. unfold Rabs. destruct (Rcase_abs x); lra. Qed.

Lemma R_pow2_31 : 2 ^ 31 = IZR (2 ^ 31).
Proof. rewrite pow_IZR. reflexivity. Qed.

(** On a power of two the logarithm is an integer, and is returned
    exactly. *)
Lemma libm_log2_pow2 (k : Z) :
  (0 <= k)%Z -> libm_log2 (IZR (2 ^ k)) = IZR k.
Proof.
  intros Hk. apply libm_log2_exact.
  - apply IZR_lt. apply Z.pow_pos_nonneg; lia.
  - rewrite ln_IZR_pow2 by assumption. field.
    pose proof ln2_pos; lra.
Qed.

(** Strictly between two consecutive powers of two, the real logarithm
    keeps a distance of at least [1 / 2^31] from both integers around it. *)
Lemma log2_real_gap (n k : Z) :
  (0 <= k <= 30)%Z -> (2 ^ k < n < 2 ^ (k + 1))%Z ->
  IZR k + / 2 ^ 31 <= ln (IZR n) / ln 2 <= IZR k + 1 - / 2 ^ 31.
Proof.
  intros Hk Hn.
  pose proof ln2_pos as Hl0. pose proof ln2_le_1 as Hl1.
  assert (HP : 0 < IZR (2 ^ k)) by (apply IZR_lt, Z.pow_pos_nonneg; lia).
  assert (HQ : 0 < IZR (2 ^ (k + 1))) by (apply IZR_lt, Z.pow_pos_nonneg; lia).
  assert (HN : 0 < IZR n) by (apply IZR_lt; lia).
  assert (Hn31 : (n < 2 ^ 31)%Z).
  { apply Z.lt_le_trans with (2 ^ (k + 1))%Z; [lia|].
    apply Z.pow_le_mono_r; lia. }
  assert (HQ31 : (2 ^ (k + 1) <= 2 ^ 31)%Z) by (apply Z.pow_le_mono_r; lia).
  (* the two relative gaps are at least 1 / 2^31 *)
  assert (Hlo : / 2 ^ 31 <= (IZR n - IZR (2 ^ k)) / IZR n).
  { apply Rle_trans with (/ IZR n).
    - apply Rinv_le_contravar; [assumption|].
      rewrite R_pow2_31. apply IZR_le. lia.
    - unfold Rdiv. rewrite <- (Rmult_1_l (/ IZR n)) at 1.
      apply Rmult_le_compat_r.
      + left. now apply Rinv_0_lt_compat.
      + rewrite <- minus_IZR. apply IZR_le. lia. }
  assert (Hhi : / 2 ^ 31 <= (IZR (2 ^ (k + 1)) - IZR n) / IZR (2 ^ (k + 1))).
  { apply Rle_trans with (/ IZR (2 ^ (k + 1))).
    - apply Rinv_le_contravar; [assumption|].
      rewrite R_pow2_31. now apply IZR_le.
    - unfold Rdiv. rewrite <- (Rmult_1_l (/ IZR (2 ^ (k + 1)))) at 1.
      apply Rmult_le_compat_r.
      + left. now apply Rinv_0_lt_compat.
      + rewrite <- minus_IZR. apply IZR_le. lia. }
  pose proof (ln_gap _ _ HP HN) as G1.
  pose proof (ln_gap _ _ HN HQ) as G2.
  rewrite ln_IZR_pow2 in G1 by lia.
  rewrite ln_IZR_pow2, plus_IZR in G2 by lia.
  assert (He : 0 < / 2 ^ 31) by (apply Rinv_0_lt_compat; lra).
  split.
  - apply Rmult_le_reg_r with (ln 2); [assumption|].
    unfold Rdiv. rewrite Rmult_assoc, Rinv_l, Rmult_1_r by lra. nra.
  - apply Rmult_le_reg_r with (ln 2); [assumption|].
    unfold Rdiv. rewrite Rmult_assoc, Rinv_l, Rmult_1_r by lra. nra.
Qed.

(** The rounding error of [libm_log2] cannot carry the result across an
    integer: truncation gives the integer logarithm. *)
Lemma compute_max_depth_log2 (n : Z) :
  (1 <= n <= INT_MAX)%Z -> compute_max_depth n = Z.log2 n.
Proof.
  unfold INT_MAX. intros Hn.
  unfold compute_max_depth, int_to_double.
  pose proof (Z.log2_spec n ltac:(lia)) as Hspec.
  pose proof (Z.log2_nonneg n) as Hk0.
  assert (Hk30 : (Z.log2 n <= 30)%Z).
  { enough (Z.log2 n < 31)%Z by lia. apply Z.log2_lt_pow2; lia. }
  remember (Z.log2 n) as k eqn:Ek.
  replace (Z.succ k) with (k + 1)%Z in Hspec by lia.
  destruct (Z.eq_dec n (2 ^ k)) as [-> | Hne].
  - rewrite libm_log2_pow2 by assumption. apply double_to_int_IZR.
  - pose proof (log2_real_gap n k ltac:(lia) ltac:(lia)) as [Glo Ghi].
    assert (HN : 0 < IZR n) by (apply IZR_lt; lia).
    pose proof (libm_log2_accurate (IZR n) HN) as Hacc.
    assert (Hk : 0 <= IZR k <= 30) by (split; apply IZR_le; lia).
    assert (He : 0 < / 2 ^ 31) by (apply Rinv_0_lt_compat; lra).
    rewrite (Rabs_pos_eq (ln (IZR n) / ln 2)) in Hacc by lra.
    unfold double_ulp in Hacc.
    apply Rabs_bound in Hacc.
    apply double_to_int_floor; [assumption|].
    split; lra.
Qed.

End MaxDepth.

(** ** The process topology *)

Section Topology.
Context {libm : LibM}.

Lemma log2_int_bounds (n : Z) :
  1 <= n <= INT_MAX ->
  0 <= Z.log2 n <= 30 /\ 2 ^ Z.log2 n <= n < 2 ^ (Z.log2 n + 1).
Proof.
  unfold INT_MAX. intros Hn.
  pose proof (Z.log2_spec n ltac:(lia)) as Hspec.
  pose proof (Z.log2_nonneg n) as Hk0.
  replace (Z.succ (Z.log2 n)) with (Z.log2 n + 1) in Hspec by lia.
  assert (Z.log2 n < 31) by (apply Z.log2_lt_pow2; lia).
  lia.
Qed.

Lemma pow2_le_pow2_30 (d : Z) : 0 <= d <= 30 -> 0 < 2 ^ d <= 2 ^ 30.
Proof.
  intros Hd. split.
  - apply Z.pow_pos_nonneg; lia.
  - apply Z.pow_le_mono_r; lia.
Qed.

(** [pow(2.0, d)] is a power of two below [2^31]: it is computed exactly
    and the subtraction stays inside [int]. *)
Lemma compute_n_surplus_processes_pow2 (n d : Z) :
  0 <= n <= INT_MAX -> 0 <= d <= 30 ->
  compute_n_surplus_processes n d = n - 2 ^ d.
Proof.
  intros Hn Hd. unfold compute_n_surplus_processes, int_to_double.
  pose proof (pow2_le_pow2_30 d Hd) as Hp.
  rewrite (libm_pow_exact 2 (IZR d) (2 ^ d)).
  - rewrite double_to_int_IZR. unfold int_sub. apply wrap_small.
    int_range.
  - lra.
  - now apply Rpower_2_IZR.
  - rewrite Z.abs_eq by lia.
    apply Z.le_trans with (2 ^ 30); [ lia | apply Z.pow_le_mono_r; lia ].
Qed.

Lemma surplus_of_max_depth (n : Z) :
  1 <= n <= INT_MAX ->
  compute_n_surplus_processes n (compute_max_depth n) = n - 2 ^ Z.log2 n.
Proof.
  intros Hn. rewrite compute_max_depth_log2 by assumption.
  destruct (log2_int_bounds n Hn) as [Hk _].
  apply compute_n_surplus_processes_pow2; lia.
Qed.

End Topology.

(** *** Maximal depth and surplus *)

(** C4.  For every worker count [n >= 1] that is an [int],
    [compute_max_depth n] is the floor of the binary logarithm of [n]: it
    is [Z.log2 n], the one [d] with [2^d <= n < 2^(d+1)]; and
    [compute_max_depth 1 = 0]. *)
Theorem compute_max_depth_floor_log2 (libm : LibM) (n : Z) :
  1 <= n <= INT_MAX ->
  compute_max_depth n = Z.log2 n /\
  2 ^ compute_max_depth n <= n < 2 ^ (compute_max_depth n + 1) /\
  compute_max_depth 1 = 0.
Proof.
  intros Hn.
  rewrite !compute_max_depth_log2 by (unfold INT_MAX in *; lia).
  destruct (log2_int_bounds n Hn) as [_ Hb].
  repeat split; tauto.
Qed.

Lemma compute_max_depth_floor_log2_witness :
  1 <= 5 <= INT_MAX /\ @compute_max_depth exact_libm 5 = 2.
Proof.
  assert (H : 1 <= 5 <= INT_MAX) by (unfold INT_MAX; lia).
  split; [ exact H | ].
  destruct (compute_max_depth_floor_log2 exact_libm 5 H) as [E _].
  rewrite E. reflexivity.
Defined.

(** C5.  For every worker count [n >= 1] with [d = compute_max_depth n],
    [compute_n_surplus_processes n d] is [n - 2^d]; so [n] is [2^d] plus
    the surplus, and the surplus is at least 0 and below [2^d]. *)
Theorem surplus_decomposition (libm : LibM) (n : Z) :
  1 <= n <= INT_MAX ->
  let d := compute_max_depth n in
  let s := compute_n_surplus_processes n d in
  s = n - 2 ^ d /\ n = 2 ^ d + s /\ 0 <= s < 2 ^ d.
Proof.
  intros Hn d s. subst s d.
  rewrite surplus_of_max_depth by assumption.
  rewrite compute_max_depth_log2 by assumption.
  destruct (log2_int_bounds n Hn) as [Hk Hb].
  rewrite Z.pow_add_r, Z.pow_1_r in Hb by lia.
  lia.
Qed.

Lemma surplus_decomposition_witness :
  1 <= 5 <= INT_MAX /\
  @compute_n_surplus_processes exact_libm 5 (@compute_max_depth exact_libm 5)
  = 1.
Proof.
  assert (H : 1 <= 5 <= INT_MAX) by (unfold INT_MAX; lia).
  split; [ exact H | ].
  destruct (surplus_decomposition exact_libm 5 H) as [E _].
  rewrite E.
  rewrite (@compute_max_depth_log2 exact_libm 5 H). reflexivity.
Defined.

(** Five workers: depth 2 and one surplus worker, whatever the libm. *)
Example five_workers (libm : LibM) :
  compute_max_depth 5 = 2 /\ compute_n_surplus_processes 5 2 = 1.
Proof.
  assert (H : 1 <= 5 <= INT_MAX) by int_range.
  split.
  - now rewrite compute_max_depth_log2.
  - rewrite compute_n_surplus_processes_pow2 by int_range. reflexivity.
Qed.

(** *** The partner of a worker *)

Section Partner.
Variable next_process_rank : Z -> Z.

Lemma int_add_1_small (d : Z) : INT_MIN <= d < INT_MAX -> int_add d 1 = d + 1.
Proof.
  intros Hd. unfold int_add. apply wrap_small.
  int_range.
Qed.

(** Up to the deepest level only the first summand is left, and it does
    not mention the rank. *)
Lemma compute_next_process_rank_below
    (rank max_depth next_depth surplus n : Z) :
  INT_MIN <= max_depth < INT_MAX -> next_depth <= max_depth ->
  compute_next_process_rank next_process_rank
    rank max_depth next_depth surplus n
  = int_add (int_mul 1 (next_process_rank next_depth)) 0.
Proof.
  intros Hd Hle. unfold compute_next_process_rank.
  rewrite int_add_1_small by assumption.
  replace (next_depth <? max_depth + 1) with true
    by (symmetry; apply Z.ltb_lt; lia).
  replace (next_depth =? max_depth + 1) with false
    by (symmetry; apply Z.eqb_neq; lia).
  cbn [of_bool]. now rewrite !int_mul_0_l.
Qed.

(** One level past the deepest, a surplus rank gets the folded rank. *)
Lemma compute_next_process_rank_surplus (rank max_depth surplus n : Z) :
  INT_MIN <= max_depth < INT_MAX ->
  INT_MIN <= rank < surplus -> 0 <= surplus <= n -> n <= INT_MAX ->
  compute_next_process_rank next_process_rank
    rank max_depth (max_depth + 1) surplus n
  = n - surplus + rank.
Proof.
  intros Hd Hr Hs Hn. unfold compute_next_process_rank.
  rewrite int_add_1_small by assumption.
  rewrite Z.ltb_irrefl, Z.eqb_refl.
  replace (rank <? surplus) with true by (symmetry; apply Z.ltb_lt; lia).
  cbn [of_bool]. rewrite int_mul_0_l.
  assert (I1 : is_int 1) by int_range.
  rewrite (int_mul_1_l 1 I1).
  assert (I2 : is_int (n - surplus))
    by int_range.
  unfold int_sub. rewrite (wrap_small _ I2).
  assert (I3 : is_int (n - surplus + rank))
    by int_range.
  unfold int_add at 2. rewrite (wrap_small _ I3).
  rewrite (int_mul_1_l _ I3). now apply int_add_0_l.
Qed.

(** Where neither summand applies both products are 0. *)
Lemma compute_next_process_rank_neither
    (rank max_depth next_depth surplus n : Z) :
  is_int max_depth -> is_int next_depth ->
  next_depth > max_depth + 1 \/
  (next_depth = max_depth + 1 /\ rank >= surplus) ->
  compute_next_process_rank next_process_rank
    rank max_depth next_depth surplus n
  = 0.
Proof.
  intros Hd Hnd Hcase. unfold compute_next_process_rank.
  assert (Hd' : INT_MIN <= max_depth < INT_MAX)
    by int_range.
  rewrite int_add_1_small by assumption.
  replace (next_depth <? max_depth + 1) with false
    by (symmetry; apply Z.ltb_ge; lia).
  destruct Hcase as [Hgt | [Heq Hge]].
  - replace (next_depth =? max_depth + 1) with false
      by (symmetry; apply Z.eqb_neq; lia).
    cbn [of_bool]. now rewrite !int_mul_0_l.
  - replace (next_depth =? max_depth + 1) with true
      by (symmetry; apply Z.eqb_eq; lia).
    replace (rank <? surplus) with false
      by (symmetry; apply Z.ltb_ge; lia).
    cbn [of_bool]. now rewrite int_mul_0_r, !int_mul_0_l.
Qed.

End Partner.

Lemma partner_ignores_rank (libm : LibM) (next_process_rank : Z -> Z)
    (n next_depth r1 r2 : Z) :
  1 <= n <= INT_MAX ->
  next_depth <= compute_max_depth n ->
  compute_next_process_rank next_process_rank r1 (compute_max_depth n)
    next_depth (compute_n_surplus_processes n (compute_max_depth n)) n
  = compute_next_process_rank next_process_rank r2 (compute_max_depth n)
      next_depth (compute_n_surplus_processes n (compute_max_depth n)) n.
Proof.
  intros Hn Hnd.
  pose proof (compute_max_depth_log2 n Hn) as E.
  destruct (log2_int_bounds n Hn) as [Hk _].
  assert (Hd : INT_MIN <= compute_max_depth n < INT_MAX)
    by (rewrite E; unfold INT_MIN, INT_MAX; lia).
  now rewrite !compute_next_process_rank_below by assumption.
Qed.

(** C1.  What the code does where a perfect matching is asked for: for
    every worker count [n] and every level [next_depth] up to
    [compute_max_depth n], any two distinct workers of the level get one
    and the same partner from [compute_next_process_rank], whatever
    [next_process_rank] is; so on no set of two or more active workers is
    the function a perfect matching. *)
Theorem partner_is_no_matching (libm : LibM) (next_process_rank : Z -> Z)
    (n next_depth : Z) (active : Z -> Prop) (r1 r2 : Z) :
  1 <= n <= INT_MAX ->
  next_depth <= compute_max_depth n ->
  active r1 -> active r2 -> r1 <> r2 ->
  let d := compute_max_depth n in
  let s := compute_n_surplus_processes n d in
  let partner := fun r =>
    compute_next_process_rank next_process_rank r d next_depth s n in
  partner r1 = partner r2 /\ ~ perfect_matching active partner.
Proof.
  intros Hn Hnd A1 A2 Hne d s partner. subst partner s d.
  pose proof (partner_ignores_rank libm next_process_rank n next_depth r1 r2
                Hn Hnd) as E.
  split; [ exact E | ].
  intros [_ Hinj]. apply Hne. now apply Hinj.
Qed.

Lemma partner_is_no_matching_witness :
  ~ perfect_matching (valid_rank 2)
      (fun r =>
         compute_next_process_rank (fun _ => 0) r
           (@compute_max_depth exact_libm 2) 1
           (@compute_n_surplus_processes exact_libm 2
              (@compute_max_depth exact_libm 2))
           2).
Proof.
  assert (H : 1 <= 2 <= INT_MAX) by (unfold INT_MAX; lia).
  assert (Hd : 1 <= @compute_max_depth exact_libm 2).
  { rewrite (@compute_max_depth_log2 exact_libm 2 H).
    change (Z.log2 2) with 1. lia. }
  assert (A0 : valid_rank 2 0) by (unfold valid_rank; lia).
  assert (A1 : valid_rank 2 1) by (unfold valid_rank; lia).
  assert (Hne : 0 <> 1) by lia.
  exact (proj2 (partner_is_no_matching exact_libm (fun _ => 0) 2 1
                  (valid_rank 2) 0 1 H Hd A0 A1 Hne)).
Defined.

(** C2.  For every worker count [n] with [d = compute_max_depth n] and
    surplus [s = compute_n_surplus_processes n d], and every rank [r] with
    [r < s], [compute_next_process_rank r d (d + 1) s n] is [n - s + r];
    for a rank [0 <= r] that is one of the ranks [2^d .. n-1] of the
    run. *)
Theorem surplus_worker_folded (libm : LibM) (next_process_rank : Z -> Z)
    (n r : Z) :
  1 <= n <= INT_MAX ->
  let d := compute_max_depth n in
  let s := compute_n_surplus_processes n d in
  is_int r -> r < s ->
  compute_next_process_rank next_process_rank r d (d + 1) s n = n - s + r /\
  (0 <= r -> 2 ^ d <= n - s + r < n).
Proof.
  intros Hn d s. subst s d.
  rewrite surplus_of_max_depth by assumption.
  rewrite compute_max_depth_log2 by assumption.
  destruct (log2_int_bounds n Hn) as [Hk Hb].
  rewrite Z.pow_add_r, Z.pow_1_r in Hb by lia.
  intros Hi Hr. split.
  - apply compute_next_process_rank_surplus;
      int_range.
  - lia.
Qed.

Lemma surplus_worker_folded_witness :
  compute_next_process_rank (fun _ => 0) 0
    (@compute_max_depth exact_libm 5) (@compute_max_depth exact_libm 5 + 1)
    (@compute_n_surplus_processes exact_libm 5 (@compute_max_depth exact_libm 5))
    5
  = 4.
Proof.
  assert (H : 1 <= 5 <= INT_MAX) by (unfold INT_MAX; lia).
  assert (Hs : 0 <
    @compute_n_surplus_processes exact_libm 5 (@compute_max_depth exact_libm 5)).
  { rewrite (@surplus_of_max_depth exact_libm 5 H).
    change (Z.log2 5) with 2. lia. }
  assert (I0 : is_int 0) by int_range.
  destruct (surplus_worker_folded exact_libm (fun _ => 0) 5 0 H I0 Hs)
    as [E _].
  rewrite E. rewrite (@surplus_of_max_depth exact_libm 5 H).
  change (Z.log2 5) with 2. lia.
Defined.

(** C9.  For every rank, when neither summand applies, that is when
    [next_depth > max_depth + 1], or [next_depth = max_depth + 1] and the
    rank is not below the surplus, [compute_next_process_rank] returns 0.
    That value is the rank of the coordinating worker, a rank of every
    run: the result for a worker without partner is not set apart from a
    pairing with rank 0. *)
Theorem no_partner_is_rank_zero (next_process_rank : Z -> Z)
    (rank max_depth next_depth surplus n : Z) :
  is_int max_depth -> is_int next_depth ->
  next_depth > max_depth + 1 \/
  (next_depth = max_depth + 1 /\ rank >= surplus) ->
  compute_next_process_rank next_process_rank
    rank max_depth next_depth surplus n = 0 /\
  compute_next_process_rank next_process_rank
    rank max_depth next_depth surplus n = coordinator_rank /\
  (1 <= n ->
   valid_rank n (compute_next_process_rank next_process_rank
                   rank max_depth next_depth surplus n)).
Proof.
  intros Hd Hnd Hcase.
  rewrite (compute_next_process_rank_neither next_process_rank _ _ _ _ _
             Hd Hnd Hcase).
  unfold coordinator_rank, valid_rank. repeat split; lia.
Qed.

Lemma no_partner_is_rank_zero_witness :
  compute_next_process_rank (fun d => d + 7) 3 2 3 1 5 = 0 /\
  compute_next_process_rank (fun d => d + 7) 0 2 4 1 5 = 0.
Proof.
  assert (I2 : is_int 2) by int_range.
  assert (I3 : is_int 3) by int_range.
  assert (I4 : is_int 4) by int_range.
  split.
  - apply (no_partner_is_rank_zero (fun d => d + 7) 3 2 3 1 5 I2 I3).
    right. lia.
  - apply (no_partner_is_rank_zero (fun d => d + 7) 0 2 4 1 5 I2 I4).
    left. lia.
Defined.

(** ** The driver *)



(** With dims 0 the array of the coordinating worker has no cell and its
    first store leaves it; with a negative length [new] throws. *)
Example main_with_zero_dims_coordinator : main_with 6 0 0 = undefined_store.
Proof. reflexivity. Qed.

Example main_with_negative_size_coordinator :
  main_with (-1) 2 0 = throws_bad_array_new_length.
Proof. reflexivity. Qed.










(** ** Finalisation *)

(** C10.  [finalize] sets [grown_kdtree_size] to [serial_tree_size] and
    leaves [serial_tree], [serial_tree_size], [n_components] and every
    other member as they were; the array it returns is
    [unpack_optional_array] of [serial_tree], [serial_tree_size],
    [n_components] and [EMPTY_PLACEHOLDER], so two objects that agree on
    these three members return the same array. *)
Theorem finalize_frame (SerialTree Unpacked Members : Type)
    (unpack : SerialTree -> Z -> Z -> data_type -> Unpacked)
    (g g2 : KDTreeGreenhouse SerialTree Members) :
  let out := fst (finalize unpack g) in
  let g' := snd (finalize unpack g) in
  grown_kdtree_size g' = serial_tree_size g /\
  serial_tree g' = serial_tree g /\
  serial_tree_size g' = serial_tree_size g /\
  n_components g' = n_components g /\
  other_members g' = other_members g /\
  out = unpack (serial_tree g) (serial_tree_size g) (n_components g)
               EMPTY_PLACEHOLDER /\
  (serial_tree g2 = serial_tree g ->
   serial_tree_size g2 = serial_tree_size g ->
   n_components g2 = n_components g ->
   fst (finalize unpack g2) = out).
Proof.
  cbn. repeat split; try reflexivity.
  intros -> -> ->. reflexivity.
Qed.

Lemma finalize_frame_witness :
  fst (finalize unpack_optional_array
         (mkGreenhouse [Some 7; None] 1 2 99 (Some (mkKNode [7; 0] None None))))
  = fst (finalize unpack_optional_array
           (mkGreenhouse [Some 7; None] 1 2 0 (@None KNode))).
Proof.
  destruct (finalize_frame _ _ _ unpack_optional_array
              (mkGreenhouse [Some 7; None] 1 2 0 (@None KNode))
              (mkGreenhouse [Some 7; None] 1 2 99
                 (Some (mkKNode [7; 0] None None))))
    as (_ & _ & _ & _ & _ & _ & H).
  apply H; reflexivity.
Defined.

(** C6.  For an empty point set, any worker count and any positive dims,
    the build succeeds, the root is absent, [finalize] returns the empty
    sequence and the size it reports, [grown_kdtree_size], is 0. *)
Theorem empty_input_finalizes_empty
    (grow_nonempty : Z -> list (list data_type) -> Z -> greenhouse)
    (unset_size n_processes dims : Z) :
  1 <= dims ->
  exists g : greenhouse,
    grow grow_nonempty unset_size n_processes [] dims = grown g /\
    other_members g = None /\
    fst (finalize unpack_optional_array g) = [] /\
    grown_kdtree_size (snd (finalize unpack_optional_array g)) = 0.
Proof.
  intros Hd. unfold grow.
  replace (dims <=? 0) with false by (symmetry; apply Z.leb_gt; lia).
  eexists. split; [ reflexivity | ].
  unfold finalize, unpack_optional_array. cbn [fst snd serial_tree
    serial_tree_size n_components grown_kdtree_size other_members].
  rewrite firstn_nil. repeat split.
Qed.

Lemma empty_input_finalizes_empty_witness :
  exists g : greenhouse,
    grow (fun _ _ _ => mkGreenhouse [Some 1] 1 1 1 (@None KNode)) 42 4 [] 2
    = grown g /\
    other_members g = None /\
    fst (finalize unpack_optional_array g) = [] /\
    grown_kdtree_size (snd (finalize unpack_optional_array g)) = 0.
Proof.
  apply (empty_input_finalizes_empty
           (fun _ _ _ => mkGreenhouse [Some 1] 1 1 1 (@None KNode)) 42 4 2).
  lia.
Defined.

(** ** The reserved value *)

Lemma main_data_in_range (rank : Z) (dt : list data_type) (size dims : Z) :
  main rank = calls_generate_kd_tree (Some dt) size dims ->
  forall x, In x dt -> 1 <= x <= 9.
Proof.
  intros E x Hx. unfold main, main_with in E.
  destruct (rank =? 0).
  - vm_compute in E. injection E as <- _ _.
    cbn in Hx. intuition lia.
  - discriminate E.
Qed.

Example print_node_point :
  print_node 2 (mkKNode [7; 3] None None)
  = [Text "("%string; Number 7; Text ","%string; Number 3; Text ")"%string].
Proof. reflexivity. Qed.

(** The test is made on every coordinate, not on the first alone. *)
Example print_node_second_coordinate :
  print_node 2 (mkKNode [5; INT_MIN] None None)
  = [Text "("%string; Number 5; Text ","%string; Text "n/a"%string;
     Text ")"%string].
Proof. reflexivity. Qed.

Lemma print_node_placeholder (dims : Z) (node : KNode) :
  1 <= dims -> get_data node 0 = EMPTY_PLACEHOLDER ->
  print_node dims node = [Text "("%string; Text "n/a"%string; Text ")"%string].
Proof.
  intros Hd Hx. unfold print_node.
  destruct (Z.to_nat dims) as [ | todo] eqn:E; [ lia | ].
  cbn [print_coordinates]. rewrite Hx.
  unfold EMPTY_PLACEHOLDER. rewrite Z.eqb_refl. reflexivity.
Qed.

Lemma unpack_optional_array_absent (array : list (option data_type))
    (n_datapoints n_components fallback : Z) (i : nat) :
  nth_error array i = Some None ->
  (i < Z.to_nat (int_mul n_datapoints n_components))%nat ->
  nth_error (unpack_optional_array array n_datapoints n_components fallback) i
  = Some fallback.
Proof.
  intros Hcell Hi. unfold unpack_optional_array.
  rewrite nth_error_map, nth_error_firstn.
  replace (i <? Z.to_nat (int_mul n_datapoints n_components))%nat with true
    by (symmetry; now apply Nat.ltb_lt).
  now rewrite Hcell.
Qed.

Lemma unpack_at_placeholder (fuel : nat) (flat : list data_type)
    (n_groups dims i : nat) (rest : list data_type) :
  group flat dims i = EMPTY_PLACEHOLDER :: rest ->
  unpack_at fuel flat n_groups dims i = None.
Proof.
  intros Hg. destruct fuel as [ | fuel']; [ reflexivity | ].
  cbn [unpack_at]. rewrite Hg, Z.eqb_refl.
  now destruct (i <? n_groups)%nat.
Qed.

Lemma print_node_real (dims : Z) (node : KNode) :
  1 <= dims -> get_data node 0 <> EMPTY_PLACEHOLDER ->
  print_node dims node
  <> [Text "("%string; Text "n/a"%string; Text ")"%string].
Proof.
  intros Hd Hx. unfold print_node.
  destruct (Z.to_nat dims) as [ | todo] eqn:E; [ lia | ].
  cbn [print_coordinates].
  replace (get_data node 0 =? INT_MIN) with false
    by (symmetry; now apply Z.eqb_neq).
  cbn. intros H. discriminate H.
Qed.

(** What is unpacked has no node with a reserved first coordinate. *)
Lemma unpack_at_real (fuel : nat) :
  forall (flat : list data_type) (n_groups dims i : nat) (tree : KNode),
    unpack_at fuel flat n_groups dims i = Some tree -> real_nodes tree.
Proof.
  induction fuel as [ | fuel IH]; intros flat n_groups dims i tree;
    cbn [unpack_at]; [ discriminate | ].
  destruct (i <? n_groups)%nat; [ | discriminate ].
  destruct (group flat dims i) as [ | x rest] eqn:G; [ discriminate | ].
  destruct (x =? EMPTY_PLACEHOLDER) eqn:Ex; [ discriminate | ].
  intros H. injection H as <-. cbn [real_nodes].
  apply Z.eqb_neq in Ex. split; [ exact Ex | split ].
  - match goal with
    | |- match ?u with _ => _ end => destruct u as [child | ] eqn:L
    end; [ now apply (IH _ _ _ _ _ L) | exact I ].
  - match goal with
    | |- match ?u with _ => _ end => destruct u as [child | ] eqn:R
    end; [ now apply (IH _ _ _ _ _ R) | exact I ].
Qed.

(** C7, as stated, fails: the reserved value is a value of the coordinate
    type like any other, so a point can carry it; the point
    [(INT_MIN, 5)] is then printed as absent, and is lost when its flat
    form is unpacked. *)
Lemma real_point_read_as_absent :
  ~ (forall point : list data_type,
       Forall is_int point -> ~ In EMPTY_PLACEHOLDER point) /\
  print_node 2 (mkKNode [EMPTY_PLACEHOLDER; 5] None None)
  = [Text "("%string; Text "n/a"%string; Text ")"%string] /\
  unpack [EMPTY_PLACEHOLDER; 5] 1 2 = None.
Proof.
  split; [ | split; reflexivity ].
  intros H. apply (H [EMPTY_PLACEHOLDER; 5]).
  - repeat constructor; unfold is_int, EMPTY_PLACEHOLDER, INT_MIN, INT_MAX;
      lia.
  - now left.
Qed.

(** C7, amended.  The reserved value is [EMPTY_PLACEHOLDER], the least
    [int], and itself an [int]: it is reserved by convention only.  No
    coordinate of the data the driver builds from equals it.  A node is
    printed as absent, ["(n/a)"], exactly when its first coordinate is the
    reserved value.  A group that starts with the reserved value unpacks
    to no node, whatever the groups of its descendants hold, and no node
    of an unpacked tree has a reserved first coordinate. *)
Theorem placeholder_reserved_by_convention :
  (EMPTY_PLACEHOLDER = INT_MIN /\ is_int EMPTY_PLACEHOLDER /\
   forall x : data_type, is_int x -> EMPTY_PLACEHOLDER <= x) /\
  (forall rank dt size dims,
     main rank = calls_generate_kd_tree (Some dt) size dims ->
     forall x, In x dt -> x <> EMPTY_PLACEHOLDER) /\
  (forall dims node,
     1 <= dims ->
     (print_node dims node
      = [Text "("%string; Text "n/a"%string; Text ")"%string] <->
      get_data node 0 = EMPTY_PLACEHOLDER)) /\
  (forall fuel flat n_groups dims i rest,
     group flat dims i = EMPTY_PLACEHOLDER :: rest ->
     unpack_at fuel flat n_groups dims i = None) /\
  (forall fuel flat n_groups dims i tree,
     unpack_at fuel flat n_groups dims i = Some tree -> real_nodes tree).
Proof.
  split; [ | split; [ | split; [ | split ] ] ].
  - unfold is_int, EMPTY_PLACEHOLDER, INT_MIN, INT_MAX.
    repeat split; lia.
  - intros rank dt size dims E x Hx Hp.
    pose proof (main_data_in_range rank dt size dims E x Hx) as Hr.
    unfold EMPTY_PLACEHOLDER, INT_MIN in Hp. lia.
  - intros dims node Hd. split.
    + intros Hp.
      destruct (Z.eq_dec (get_data node 0) EMPTY_PLACEHOLDER) as [E | N];
        [ exact E | ].
      exfalso. exact (print_node_real dims node Hd N Hp).
    + now apply print_node_placeholder.
  - intros. eapply unpack_at_placeholder. eassumption.
  - intros fuel flat n_groups dims i tree. apply unpack_at_real.
Qed.

Lemma placeholder_reserved_by_convention_witness :
  print_node 2 (mkKNode [INT_MIN; 5] None None)
  = [Text "("%string; Text "n/a"%string; Text ")"%string] /\
  unpack_at 5 [3; 4; INT_MIN; 0; 8; 9; 6; 6; 7; 7] 5 2 1 = None /\
  real_nodes (mkKNode [3; 4] None (Some (mkKNode [8; 9] None None))).
Proof.
  destruct placeholder_reserved_by_convention as (_ & _ & Hp & Hu & Hr).
  split; [ | split ].
  - apply Hp; [ lia | reflexivity ].
  - apply (Hu 5%nat _ 5%nat 2%nat 1%nat [0]). reflexivity.
  - apply (Hr 5%nat [3; 4; INT_MIN; 0; 8; 9; 6; 6; 7; 7] 5%nat 2%nat 0%nat).
    reflexivity.
Defined.

(** * Further properties *)

(** ** The process topology *)

(** X1.  The maximal depth of a run lies between 0 and 30, and more
    workers never give a smaller depth. *)
Theorem compute_max_depth_monotone (libm : LibM) (n m : Z) :
  1 <= n -> n <= m -> m <= INT_MAX ->
  0 <= compute_max_depth n /\
  compute_max_depth n <= compute_max_depth m /\
  compute_max_depth m <= 30.
Proof.
  intros H1 Hnm Hm.
  assert (Hn : 1 <= n <= INT_MAX) by lia.
  assert (Hm' : 1 <= m <= INT_MAX) by lia.
  rewrite !compute_max_depth_log2 by assumption.
  destruct (log2_int_bounds n Hn) as [Hk _].
  destruct (log2_int_bounds m Hm') as [Hk' _].
  pose proof (Z.log2_le_mono n m Hnm). lia.
Qed.

Lemma compute_max_depth_monotone_witness :
  @compute_max_depth exact_libm 5 <= @compute_max_depth exact_libm 9.
Proof.
  apply (compute_max_depth_monotone exact_libm 5 9); unfold INT_MAX; lia.
Defined.

(** X2.  Twice the workers give one level more. *)
Theorem compute_max_depth_double (libm : LibM) (n : Z) :
  1 <= n -> 2 * n <= INT_MAX ->
  compute_max_depth (2 * n) = compute_max_depth n + 1.
Proof.
  intros H1 H2.
  rewrite !compute_max_depth_log2 by lia.
  rewrite Z.log2_double by lia. lia.
Qed.

Lemma compute_max_depth_double_witness :
  @compute_max_depth exact_libm (2 * 3) = @compute_max_depth exact_libm 3 + 1.
Proof.
  apply (compute_max_depth_double exact_libm 3); unfold INT_MAX; lia.
Defined.

(** X3.  A run has no surplus worker exactly when its worker count is a
    power of two; the depth of [2^k] workers is [k]. *)
Theorem no_surplus_iff_power_of_two (libm : LibM) (n : Z) :
  1 <= n <= INT_MAX ->
  (compute_n_surplus_processes n (compute_max_depth n) = 0 <->
   exists k, 0 <= k /\ n = 2 ^ k) /\
  (forall k, 0 <= k -> n = 2 ^ k -> compute_max_depth n = k).
Proof.
  intros Hn.
  rewrite surplus_of_max_depth by assumption.
  rewrite compute_max_depth_log2 by assumption.
  destruct (log2_int_bounds n Hn) as [Hk Hb].
  split; [ split | ].
  - intros E. exists (Z.log2 n). lia.
  - intros (k & Hk0 & ->). rewrite Z.log2_pow2 by assumption. lia.
  - intros k Hk0 ->. now apply Z.log2_pow2.
Qed.

Lemma no_surplus_iff_power_of_two_witness :
  @compute_n_surplus_processes exact_libm 8 (@compute_max_depth exact_libm 8)
  = 0.
Proof.
  assert (H : 1 <= 8 <= INT_MAX) by (unfold INT_MAX; lia).
  apply (proj1 (no_surplus_iff_power_of_two exact_libm 8 H)).
  exists 3. split; [ lia | reflexivity ].
Defined.

(** X4.  For any depth from 0 to 30, not only the maximal one,
    [compute_n_surplus_processes n d] is [n - 2^d], without wrap-around;
    it is negative exactly when the level has more places than the run
    has workers. *)
Theorem compute_n_surplus_processes_any_depth (libm : LibM) (n d : Z) :
  0 <= n <= INT_MAX -> 0 <= d <= 30 ->
  compute_n_surplus_processes n d = n - 2 ^ d /\
  (compute_n_surplus_processes n d < 0 <-> n < 2 ^ d).
Proof.
  intros Hn Hd.
  rewrite compute_n_surplus_processes_pow2 by assumption.
  split; [ reflexivity | lia ].
Qed.

Lemma compute_n_surplus_processes_any_depth_witness :
  @compute_n_surplus_processes exact_libm 5 3 = -3.
Proof.
  assert (Hn : 0 <= 5 <= INT_MAX) by (unfold INT_MAX; lia).
  assert (Hd : 0 <= 3 <= 30) by lia.
  destruct (compute_n_surplus_processes_any_depth exact_libm 5 3 Hn Hd)
    as [E _].
  rewrite E. reflexivity.
Defined.

(** X5.  One level past the maximal depth the surplus workers are paired
    off properly: no surplus worker is its own partner, no two of them
    have the same partner, and every partner is a rank of the run that is
    not a surplus rank itself. *)
Theorem surplus_level_is_matching (libm : LibM) (next_process_rank : Z -> Z)
    (n : Z) :
  1 <= n <= INT_MAX ->
  let d := compute_max_depth n in
  let s := compute_n_surplus_processes n d in
  let partner := fun r =>
    compute_next_process_rank next_process_rank r d (d + 1) s n in
  perfect_matching (fun r => 0 <= r < s) partner /\
  (forall r, 0 <= r < s -> s <= partner r < n).
Proof.
  intros Hn d s partner.
  assert (P : forall r, 0 <= r < s ->
                partner r = n - s + r /\ 2 ^ d <= n - s + r < n).
  { intros r Hr.
    pose proof (compute_max_depth_log2 n Hn) as Ed.
    destruct (log2_int_bounds n Hn) as [Hk Hb].
    rewrite Z.pow_add_r, Z.pow_1_r in Hb by lia.
    assert (Es : s = n - 2 ^ Z.log2 n)
      by (subst s d; now apply surplus_of_max_depth).
    subst partner. cbn beta. split.
    - apply compute_next_process_rank_surplus; subst d; rewrite ?Ed;
        unfold INT_MIN, INT_MAX in *; lia.
    - subst d. rewrite Ed. lia. }
  assert (Hs : s < 2 ^ d).
  { destruct (log2_int_bounds n Hn) as [Hk Hb].
    rewrite Z.pow_add_r, Z.pow_1_r in Hb by lia.
    subst s d. rewrite surplus_of_max_depth by assumption.
    rewrite compute_max_depth_log2 by assumption. lia. }
  split; [ split | ].
  - intros r Hr. destruct (P r Hr) as [E B]. rewrite E. lia.
  - intros r1 r2 H1 H2 E.
    destruct (P r1 H1) as [E1 _]. destruct (P r2 H2) as [E2 _]. lia.
  - intros r Hr. destruct (P r Hr) as [E B]. rewrite E. lia.
Qed.

Lemma surplus_level_is_matching_witness :
  perfect_matching
    (fun r => 0 <= r <
       @compute_n_surplus_processes exact_libm 7 (@compute_max_depth exact_libm 7))
    (fun r =>
       compute_next_process_rank (fun _ => 0) r
         (@compute_max_depth exact_libm 7) (@compute_max_depth exact_libm 7 + 1)
         (@compute_n_surplus_processes exact_libm 7
            (@compute_max_depth exact_libm 7))
         7).
Proof.
  assert (H : 1 <= 7 <= INT_MAX) by (unfold INT_MAX; lia).
  exact (proj1 (surplus_level_is_matching exact_libm (fun _ => 0) 7 H)).
Defined.

(** X6.  Up to the maximal depth the result is
    [next_process_rank(next_depth)] and nothing else: it is the same for
    every rank, every surplus and every worker count. *)
Theorem partner_up_to_max_depth (next_process_rank : Z -> Z)
    (rank max_depth next_depth surplus n : Z) :
  INT_MIN <= max_depth < INT_MAX -> next_depth <= max_depth ->
  is_int (next_process_rank next_depth) ->
  compute_next_process_rank next_process_rank
    rank max_depth next_depth surplus n
  = next_process_rank next_depth.
Proof.
  intros Hd Hle Hi.
  rewrite compute_next_process_rank_below by assumption.
  rewrite int_mul_1_l by assumption.
  unfold int_add. rewrite Z.add_0_r. now apply wrap_small.
Qed.

Lemma partner_up_to_max_depth_witness :
  compute_next_process_rank (fun d => d + 7) 3 2 1 1 5 = 8.
Proof.
  apply (partner_up_to_max_depth (fun d => d + 7) 3 2 1 1 5);
    unfold is_int, INT_MIN, INT_MAX; lia.
Defined.

(** ** Printing a node *)

Lemma numbers_app (a b : list item) :
  numbers (a ++ b) = numbers a ++ numbers b.
Proof. unfold numbers. apply flat_map_app. Qed.

Lemma count_text_app (s : string) (a b : list item) :
  count_text s (a ++ b) = (count_text s a + count_text s b)%nat.
Proof. unfold count_text. now rewrite filter_app, length_app. Qed.

Lemma skipn_cons_nth (A : Type) (d : A) (l : list A) (k : nat) :
  (k < List.length l)%nat -> skipn k l = nth k l d :: skipn (S k) l.
Proof.
  revert k. induction l as [ | x l IH]; intros k Hk; cbn in Hk.
  - lia.
  - destruct k as [ | k]; [ reflexivity | ].
    cbn [skipn nth]. apply IH. lia.
Qed.

Lemma get_data_nth (node : KNode) (k : nat) :
  get_data node (Z.of_nat k) = nth k (coordinates node) 0.
Proof. destruct node. cbn. now rewrite Nat2Z.id. Qed.

Lemma int_add_1_of_nat (k : nat) :
  Z.of_nat (S k) <= INT_MAX -> int_add (Z.of_nat k) 1 = Z.of_nat (S k).
Proof.
  intros Hk. unfold int_add. rewrite wrap_small; [ lia | int_range ].
Qed.

(** The loop writes the coordinates from index [k] on up to the first
    reserved one. *)
Lemma print_coordinates_numbers (node : KNode) (todo k : nat) :
  (k + todo <= List.length (coordinates node))%nat ->
  Z.of_nat (k + todo) <= INT_MAX ->
  numbers (print_coordinates todo (Z.of_nat k) node)
  = before_placeholder (firstn todo (skipn k (coordinates node))).
Proof.
  revert k. induction todo as [ | todo IH]; intros k Hlen Hmax.
  - reflexivity.
  - cbn [print_coordinates]. rewrite numbers_app.
    rewrite (skipn_cons_nth data_type 0 (coordinates node) k) by lia.
    cbn [firstn before_placeholder]. rewrite get_data_nth.
    replace (numbers (if 0 <? Z.of_nat k then [Text ","%string] else []))
      with (@nil Z) by (now destruct (0 <? Z.of_nat k)).
    cbn [app].
    destruct (nth k (coordinates node) 0 =? INT_MIN); [ reflexivity | ].
    rewrite int_add_1_of_nat by lia.
    rewrite <- (IH (S k)) by lia. reflexivity.
Qed.

Lemma before_placeholder_free (cs : list data_type) :
  ~ In INT_MIN (before_placeholder cs).
Proof.
  induction cs as [ | c cs IH]; cbn [before_placeholder].
  - intros [].
  - destruct (c =? INT_MIN) eqn:E.
    + intros [].
    + apply Z.eqb_neq in E. intros [H | H]; [ congruence | now apply IH ].
Qed.

(** X7.  [print_node] writes as numbers exactly the coordinates of the
    node that come before its first reserved coordinate, in their order,
    and none after it; the reserved value itself is never written as a
    number. *)
Theorem print_node_numbers (dims : Z) (node : KNode) :
  dims <= INT_MAX ->
  (Z.to_nat dims <= List.length (coordinates node))%nat ->
  numbers (print_node dims node)
  = before_placeholder (firstn (Z.to_nat dims) (coordinates node)) /\
  ~ In INT_MIN (numbers (print_node dims node)).
Proof.
  intros Hmax Hlen.
  assert (E : numbers (print_node dims node)
              = before_placeholder
                  (firstn (Z.to_nat dims) (coordinates node))).
  { unfold print_node. rewrite !numbers_app. cbn [numbers flat_map app].
    rewrite app_nil_r.
    change 0 with (Z.of_nat 0).
    rewrite print_coordinates_numbers; [ reflexivity | cbn; lia | ].
    unfold INT_MAX in *. lia. }
  split; [ exact E | ].
  rewrite E. apply before_placeholder_free.
Qed.

Lemma print_node_numbers_witness :
  numbers (print_node 3 (mkKNode [4; INT_MIN; 6] None None)) = [4].
Proof.
  apply (print_node_numbers 3 (mkKNode [4; INT_MIN; 6] None None)).
  - unfold INT_MAX. lia.
  - cbn. lia.
Defined.

Lemma print_coordinates_absent_mark (node : KNode) (todo k : nat) :
  (k + todo <= List.length (coordinates node))%nat ->
  Z.of_nat (k + todo) <= INT_MAX ->
  count_text "n/a" (print_coordinates todo (Z.of_nat k) node)
  = if existsb (Z.eqb INT_MIN) (firstn todo (skipn k (coordinates node)))
    then 1%nat else 0%nat.
Proof.
  revert k. induction todo as [ | todo IH]; intros k Hlen Hmax.
  - reflexivity.
  - cbn [print_coordinates]. rewrite count_text_app.
    rewrite (skipn_cons_nth data_type 0 (coordinates node) k) by lia.
    cbn [firstn existsb]. rewrite get_data_nth.
    replace (count_text "n/a"
               (if 0 <? Z.of_nat k then [Text ","%string] else []))
      with 0%nat by (now destruct (0 <? Z.of_nat k)).
    rewrite (Z.eqb_sym INT_MIN).
    destruct (nth k (coordinates node) 0 =? INT_MIN); [ reflexivity | ].
    rewrite int_add_1_of_nat by lia.
    cbn [orb]. rewrite <- (IH (S k)) by lia. reflexivity.
Qed.

(** X8.  [print_node] writes ["n/a"] once when one of the coordinates it
    is to print is the reserved value, and not at all otherwise. *)
Theorem print_node_absent_mark (dims : Z) (node : KNode) :
  dims <= INT_MAX ->
  (Z.to_nat dims <= List.length (coordinates node))%nat ->
  (In INT_MIN (firstn (Z.to_nat dims) (coordinates node)) ->
   count_text "n/a" (print_node dims node) = 1%nat) /\
  (~ In INT_MIN (firstn (Z.to_nat dims) (coordinates node)) ->
   count_text "n/a" (print_node dims node) = 0%nat).
Proof.
  intros Hmax Hlen.
  assert (E : count_text "n/a" (print_node dims node)
              = if existsb (Z.eqb INT_MIN)
                     (firstn (Z.to_nat dims) (coordinates node))
                then 1%nat else 0%nat).
  { unfold print_node. rewrite !count_text_app.
    change 0 with (Z.of_nat 0).
    rewrite print_coordinates_absent_mark;
      [ | cbn; lia | unfold INT_MAX in *; lia ].
    cbn [skipn]. change (count_text "n/a" [Text "("%string]) with 0%nat.
    change (count_text "n/a" [Text ")"%string]) with 0%nat. lia. }
  rewrite E. split.
  - intros Hin.
    replace (existsb (Z.eqb INT_MIN)
               (firstn (Z.to_nat dims) (coordinates node))) with true;
      [ reflexivity | ].
    symmetry. apply existsb_exists. exists INT_MIN.
    split; [ assumption | apply Z.eqb_refl ].
  - intros Hnot.
    destruct (existsb (Z.eqb INT_MIN)
                (firstn (Z.to_nat dims) (coordinates node))) eqn:Ex;
      [ | reflexivity ].
    exfalso. apply Hnot. apply existsb_exists in Ex as (x & Hx & Hb).
    apply Z.eqb_eq in Hb. now subst x.
Qed.

Lemma print_node_absent_mark_witness :
  count_text "n/a" (print_node 2 (mkKNode [5; INT_MIN] None None)) = 1%nat /\
  count_text "n/a" (print_node 2 (mkKNode [5; 6] None None)) = 0%nat.
Proof.
  split.
  - apply (print_node_absent_mark 2 (mkKNode [5; INT_MIN] None None)).
    + unfold INT_MAX. lia.
    + cbn. lia.
    + right. left. reflexivity.
  - apply (print_node_absent_mark 2 (mkKNode [5; 6] None None)).
    + unfold INT_MAX. lia.
    + cbn. lia.
    + cbn. unfold INT_MIN. intros [H | [H | []]]; discriminate H.
Defined.

(** The entries of the loop, numbers and ["n/a"], against its commas: one
    comma before every entry but the one of index 0. *)
Lemma print_coordinates_commas (node : KNode) (todo k : nat) :
  (k + todo <= List.length (coordinates node))%nat ->
  Z.of_nat (k + todo) <= INT_MAX ->
  (count_text "," (print_coordinates todo (Z.of_nat k) node)
   + (if (k =? 0)%nat then (if (todo =? 0)%nat then 0 else 1) else 0)
   = List.length (numbers (print_coordinates todo (Z.of_nat k) node))
     + count_text "n/a" (print_coordinates todo (Z.of_nat k) node))%nat.
Proof.
  revert k. induction todo as [ | todo IH]; intros k Hlen Hmax.
  - cbn. destruct (k =? 0)%nat; reflexivity.
  - cbn [print_coordinates].
    rewrite !count_text_app, numbers_app, length_app.
    assert (Hc : (count_text ","
                    (if (0 <? Z.of_nat k)%Z then [Text ","%string] else [])
                  + (if (k =? 0)%nat then 1 else 0) = 1)%nat).
    { destruct k as [ | k]; [ reflexivity | ].
      replace (0 <? Z.of_nat (S k)) with true
        by (symmetry; apply Z.ltb_lt; lia).
      reflexivity. }
    assert (Hn : numbers (if 0 <? Z.of_nat k then [Text ","%string] else [])
                 = []) by (now destruct (0 <? Z.of_nat k)).
    assert (Ha : count_text "n/a"
                   (if 0 <? Z.of_nat k then [Text ","%string] else [])
                 = 0%nat) by (now destruct (0 <? Z.of_nat k)).
    rewrite Hn, Ha. cbn [List.length].
    change (if (S todo =? 0)%nat then 0%nat else 1%nat) with 1%nat.
    destruct (get_data node (Z.of_nat k) =? INT_MIN).
    + change (count_text "," [Text "n/a"%string]) with 0%nat.
      change (numbers [Text "n/a"%string]) with (@nil Z).
      change (count_text "n/a" [Text "n/a"%string]) with 1%nat.
      cbn [List.length]. lia.
    + rewrite int_add_1_of_nat by lia.
      pose proof (IH (S k) ltac:(lia) ltac:(lia)) as IHk.
      change (S k =? 0)%nat with false in IHk. cbn iota in IHk.
      set (rest := print_coordinates todo (Z.of_nat (S k)) node) in *.
      change (count_text "," (Number (get_data node (Z.of_nat k)) :: rest))
        with (count_text "," rest).
      change (count_text "n/a" (Number (get_data node (Z.of_nat k)) :: rest))
        with (count_text "n/a" rest).
      change (numbers (Number (get_data node (Z.of_nat k)) :: rest))
        with (get_data node (Z.of_nat k) :: numbers rest).
      cbn [List.length]. lia.
Qed.

(** X9.  When [print_node] has a coordinate to print, its entries,
    numbers and ["n/a"], are separated by commas: there is one comma fewer
    than there are entries, the ["n/a"] included. *)
Theorem print_node_commas (dims : Z) (node : KNode) :
  1 <= dims <= INT_MAX ->
  (Z.to_nat dims <= List.length (coordinates node))%nat ->
  (count_text "," (print_node dims node) + 1
   = List.length (numbers (print_node dims node))
     + count_text "n/a" (print_node dims node))%nat.
Proof.
  intros Hd Hlen. unfold print_node.
  rewrite !count_text_app, !numbers_app, !length_app.
  pose proof (print_coordinates_commas node (Z.to_nat dims) 0
                ltac:(cbn; lia) ltac:(unfold INT_MAX in *; lia)) as H.
  change (Z.of_nat 0) with 0 in H.
  change (0 =? 0)%nat with true in H. cbn iota in H.
  destruct (Z.to_nat dims) as [ | todo] eqn:E; [ lia | ].
  change (S todo =? 0)%nat with false in H. cbn iota in H.
  change (count_text "," [Text "("%string]) with 0%nat.
  change (count_text "," [Text ")"%string]) with 0%nat.
  change (count_text "n/a" [Text "("%string]) with 0%nat.
  change (count_text "n/a" [Text ")"%string]) with 0%nat.
  change (numbers [Text "("%string]) with (@nil Z).
  change (numbers [Text ")"%string]) with (@nil Z).
  cbn [List.length]. lia.
Qed.

Lemma print_node_commas_witness :
  let node := mkKNode [4; INT_MIN; 6] None None in
  (count_text "," (print_node 3 node) + 1
   = List.length (numbers (print_node 3 node))
     + count_text "n/a" (print_node 3 node))%nat.
Proof.
  apply (print_node_commas 3 (mkKNode [4; INT_MIN; 6] None None)).
  - unfold INT_MAX. lia.
  - cbn. lia.
Defined.

(** ** Printing a tree *)

(** Induction over a tree and its children that are not null. *)
Lemma KNode_induction (P : KNode -> Prop) :
  (forall data l r,
     (forall child, l = Some child -> P child) ->
     (forall child, r = Some child -> P child) ->
     P (mkKNode data l r)) ->
  forall tree, P tree.
Proof.
  intros step. fix IH 1. intros [data l r]. apply step.
  - destruct l as [child | ]; intros c E; [ | discriminate E ].
    injection E as <-. apply IH.
  - destruct r as [child | ]; intros c E; [ | discriminate E ].
    injection E as <-. apply IH.
Qed.

(** The texts [print_node] writes are the four of its own. *)
Lemma print_coordinates_texts (node : KNode) (todo : nat) (i : Z) (s : string) :
  In (Text s) (print_coordinates todo i node) ->
  s = ","%string \/ s = "n/a"%string.
Proof.
  revert i. induction todo as [ | todo IH]; intros i;
    cbn [print_coordinates].
  - intros [].
  - intros Hin. apply in_app_or in Hin. destruct Hin as [Hin | Hin];
      revert Hin.
    + destruct (0 <? i); intros Hin; [ | destruct Hin ].
      destruct Hin as [E | []]. injection E as <-. now left.
    + destruct (get_data node i =? INT_MIN); intros Hin.
      * destruct Hin as [E | []]. injection E as <-. now right.
      * destruct Hin as [E | Hin]; [ discriminate E | ].
        now apply (IH (int_add i 1)).
Qed.

Lemma print_node_texts (dims : Z) (node : KNode) (s : string) :
  In (Text s) (print_node dims node) ->
  s = "("%string \/ s = ","%string \/ s = "n/a"%string \/ s = ")"%string.
Proof.
  unfold print_node. intros Hin.
  apply in_app_or in Hin as [[E | []] | Hin].
  - injection E as <-. now left.
  - apply in_app_or in Hin as [Hin | [E | []]].
    + apply print_coordinates_texts in Hin. tauto.
    + injection E as <-. now do 3 right.
Qed.


(** An output without ["depth = "] has no header to give. *)
Lemma headers_skip (a b : list item) :
  ~ In (Text "depth = "%string) a -> headers (a ++ b) = headers b.
Proof.
  induction a as [ | it a IH]; intros Hnot.
  - reflexivity.
  - assert (Ha : ~ In (Text "depth = "%string) a)
      by (intros H; apply Hnot; now right).
    specialize (IH Ha). cbn [app headers].
    destruct it as [s | z].
    + assert (E : String.eqb s "depth = " = false).
      { apply String.eqb_neq. intros ->. apply Hnot. now left. }
      rewrite E. rewrite IH.
      now destruct (a ++ b) as [ | [ | ] ].
    + rewrite IH. now destruct (a ++ b) as [ | [ | ] ].
Qed.

Lemma print_node_no_header (dims : Z) (node : KNode) :
  ~ In (Text "depth = "%string) (print_node dims node).
Proof.
  intros H. apply print_node_texts in H.
  destruct H as [H | [H | [H | H]]]; discriminate H.
Qed.

(** The headers of a tree's output, followed by whatever comes after. *)
Lemma headers_print_then (dims : Z) (tree : KNode) :
  forall (depth : Z) (rest : list item),
    headers (print dims tree depth ++ rest)
    = depths tree depth ++ headers rest.
Proof.
  induction tree as [data l r IHl IHr] using KNode_induction.
  intros depth rest. cbn [print depths].
  set (node := mkKNode data l r).
  assert (Hchild : forall (tag : string) (c : option KNode) (tl : list item),
             (forall child, c = Some child ->
                forall d rest', headers (print dims child d ++ rest')
                                = depths child d ++ headers rest') ->
             tag <> "depth = "%string ->
             headers
               (match c with
                | Some child =>
                    [Text tag] ++ print_node dims node ++
                    [Text " -- "%string] ++
                    print dims child (int_add depth 1)
                | None => []
                end ++ tl)
             = match c with
               | Some child => depths child (int_add depth 1)
               | None => []
               end ++ headers tl).
  { intros tag c tl IHc Htag. destruct c as [child | ]; [ | reflexivity ].
    replace (([Text tag] ++ print_node dims node ++ [Text " -- "%string] ++
              print dims child (int_add depth 1)) ++ tl)
      with (([Text tag] ++ print_node dims node ++ [Text " -- "%string]) ++
            (print dims child (int_add depth 1) ++ tl))
      by (now rewrite <- !app_assoc).
    rewrite headers_skip.
    - now apply IHc.
    - intros H. apply in_app_or in H as [[E | []] | H].
      + injection E as E. congruence.
      + apply in_app_or in H as [H | [E | []]].
        * now apply print_node_no_header in H.
        * discriminate E. }
  match goal with
  | |- headers ((_ ++ _ ++ _ ++ ?L ++ ?R) ++ _)
       = (_ :: ?DL ++ ?DR) ++ _ =>
      set (Lo := L); set (Ro := R); set (Dl := DL); set (Dr := DR)
  end.
  enough (E : headers (print_node dims node ++ [endl] ++ Lo ++ Ro ++ rest)
              = (Dl ++ Dr) ++ headers rest).
  { replace (([Text "depth = "%string; Number depth; endl] ++
               print_node dims node ++ [endl] ++ Lo ++ Ro) ++ rest)
      with ([Text "depth = "%string; Number depth] ++ [endl] ++
            print_node dims node ++ [endl] ++ Lo ++ Ro ++ rest)
      by (cbn [app]; rewrite <- app_assoc; cbn [app];
          now rewrite <- app_assoc).
    cbn [app headers]. rewrite String.eqb_refl. f_equal.
    rewrite <- E.
    apply (headers_skip [endl]
             (print_node dims node ++ [endl] ++ Lo ++ Ro ++ rest)).
    intros [H | []]; discriminate H. }
  rewrite headers_skip by apply print_node_no_header.
  rewrite headers_skip by (intros [H | []]; discriminate H).
  subst Lo Dl.
  rewrite (Hchild "left node of "%string l) by (auto; discriminate).
  subst Ro Dr.
  rewrite (Hchild "right node of "%string r) by (auto; discriminate).
  now rewrite app_assoc.
Qed.

Lemma depths_length (tree : KNode) :
  forall depth, List.length (depths tree depth) = n_nodes tree.
Proof.
  induction tree as [data l r IHl IHr] using KNode_induction.
  intros depth. cbn [depths n_nodes List.length]. rewrite length_app.
  f_equal. f_equal.
  - destruct l as [child | ]; [ now apply IHl | reflexivity ].
  - destruct r as [child | ]; [ now apply IHr | reflexivity ].
Qed.

(** X10.  [print] writes one header ["depth = "] per node of the tree,
    the root first, then the left subtree, then the right one, each child
    with the depth of its parent plus one in [int]; it goes on below a
    node whatever the coordinates of the node are. *)
Theorem print_visits_every_node (dims : Z) (tree : KNode) (depth : Z) :
  headers (print dims tree depth) = depths tree depth /\
  List.length (headers (print dims tree depth)) = n_nodes tree.
Proof.
  assert (E : headers (print dims tree depth) = depths tree depth).
  { pose proof (headers_print_then dims tree depth []) as H.
    now rewrite !app_nil_r in H. }
  split; [ exact E | ].
  rewrite E. apply depths_length.
Qed.

Lemma n_nodes_pos (tree : KNode) : (1 <= n_nodes tree)%nat.
Proof. destruct tree. cbn. lia. Qed.

Lemma depths_levels (tree : KNode) :
  forall depth,
    INT_MIN <= depth ->
    depth + Z.of_nat (n_nodes tree) <= INT_MAX + 1 ->
    depths tree depth = levels tree depth.
Proof.
  induction tree as [data l r IHl IHr] using KNode_induction.
  intros depth Hlo Hhi. cbn [depths levels]. cbn [n_nodes] in Hhi.
  f_equal. f_equal.
  - destruct l as [child | ]; [ | reflexivity ].
    pose proof (n_nodes_pos child).
    rewrite int_add_1_small by (unfold INT_MIN, INT_MAX in *; lia).
    apply (IHl child eq_refl); unfold INT_MIN, INT_MAX in *; lia.
  - destruct r as [child | ]; [ | reflexivity ].
    pose proof (n_nodes_pos child).
    rewrite int_add_1_small by (unfold INT_MIN, INT_MAX in *; lia).
    apply (IHr child eq_refl); unfold INT_MIN, INT_MAX in *; lia.
Qed.

(** X11.  When the starting depth plus the number of nodes stays within
    [int], the depth [print] writes for a node is the starting depth plus
    the level of the node in the tree: the counter never wraps. *)
Theorem print_depths_are_levels (dims : Z) (tree : KNode) (depth : Z) :
  INT_MIN <= depth ->
  depth + Z.of_nat (n_nodes tree) <= INT_MAX + 1 ->
  headers (print dims tree depth) = levels tree depth.
Proof.
  intros Hlo Hhi.
  pose proof (headers_print_then dims tree depth []) as H.
  rewrite !app_nil_r in H. rewrite H. now apply depths_levels.
Qed.

Lemma print_depths_are_levels_witness :
  headers (print 2 (mkKNode [7; 3]
                      (Some (mkKNode [8; 2] None
                               (Some (mkKNode [9; 1] None None))))
                      (Some (mkKNode [5; 5] None None))) 0)
  = [0; 1; 2; 1].
Proof.
  apply (print_depths_are_levels 2
           (mkKNode [7; 3]
              (Some (mkKNode [8; 2] None (Some (mkKNode [9; 1] None None))))
              (Some (mkKNode [5; 5] None None))) 0).
  - unfold INT_MIN. lia.
  - unfold INT_MAX. cbn. lia.
Defined.




(** ** The first loop of the driver *)

Lemma store_at_length (P : list data_type) (a : data_type)
    (X : list data_type) (v : data_type) :
  store (P ++ a :: X) (Z.of_nat (List.length P)) v = Some (P ++ v :: X).
Proof.
  unfold store.
  replace (0 <=? Z.of_nat (List.length P)) with true
    by (symmetry; apply Z.leb_le; lia).
  replace (Z.of_nat (List.length P)
             <? Z.of_nat (List.length (P ++ a :: X))) with true
    by (symmetry; apply Z.ltb_lt; rewrite length_app; cbn; lia).
  cbn [andb]. rewrite Nat2Z.id. f_equal. f_equal.
  - rewrite <- (Nat.add_0_r (List.length P)).
    rewrite firstn_app_2. cbn. apply app_nil_r.
  - f_equal. rewrite skipn_app.
    rewrite skipn_all2 by lia.
    replace (S (List.length P) - List.length P)%nat with 1%nat by lia.
    reflexivity.
Qed.

Lemma store_length (dt dt' : list data_type) (i : Z) (v : data_type) :
  store dt i v = Some dt' -> List.length dt' = List.length dt.
Proof.
  unfold store.
  destruct ((0 <=? i) && (i <? Z.of_nat (List.length dt))) eqn:E;
    [ | discriminate ].
  intros H. injection H as <-. apply andb_prop in E as [H0 H1].
  apply Z.leb_le in H0. apply Z.ltb_lt in H1.
  rewrite length_app, length_firstn.
  destruct dt as [ | x l]; cbn [List.length] in *; [ lia | ].
  rewrite length_skipn. lia.
Qed.

Lemma store_outside (dt : list data_type) (i : Z) (v : data_type) :
  Z.of_nat (List.length dt) <= i -> store dt i v = None.
Proof.
  intros H. unfold store.
  replace (i <? Z.of_nat (List.length dt)) with false
    by (symmetry; apply Z.ltb_ge; lia).
  now rewrite andb_false_r.
Qed.

Lemma filled_length (todo : nat) (i : Z) :
  List.length (filled todo i) = (2 * todo)%nat.
Proof.
  revert i. induction todo as [ | todo IH]; intros i; cbn [filled List.length].
  - reflexivity.
  - rewrite IH. lia.
Qed.

(** The indices and values of one turn of the loop, without wrap-around. *)
Lemma fill_turn (k : nat) :
  2 * Z.of_nat k + 2 <= INT_MAX ->
  int_mul (Z.of_nat k) 2 = Z.of_nat (2 * k) /\
  int_add (int_mul (Z.of_nat k) 2) 1 = Z.of_nat (2 * k + 1) /\
  int_sub 9 (Z.of_nat k) = 9 - Z.of_nat k /\
  int_add 1 (Z.of_nat k) = 1 + Z.of_nat k /\
  int_add (Z.of_nat k) 1 = Z.of_nat (S k).
Proof.
  intros Hk. unfold int_mul, int_add, int_sub.
  rewrite (wrap_small (Z.of_nat k * 2)) by int_range.
  rewrite !wrap_small by int_range.
  repeat split; lia.
Qed.

(** Turn after turn the loop writes the points behind what it has written
    and leaves the cells behind them. *)
Lemma fill_writes (todo : nat) :
  forall (k : nat) (P rest : list data_type),
    List.length P = (2 * k)%nat ->
    (2 * todo <= List.length rest)%nat ->
    2 * Z.of_nat (k + todo) <= INT_MAX ->
    fill todo (Z.of_nat k) (P ++ rest)
    = Some (P ++ filled todo (Z.of_nat k) ++ skipn (2 * todo) rest).
Proof.
  induction todo as [ | todo IH]; intros k P rest HP Hrest Hmax.
  - reflexivity.
  - destruct rest as [ | a [ | b rest']]; cbn [List.length] in Hrest;
      try lia.
    destruct (fill_turn k ltac:(lia)) as (E1 & E2 & E3 & E4 & E5).
    cbn [fill]. rewrite E2, E1, E3, E4, E5.
    rewrite <- HP. rewrite store_at_length.
    pose proof (store_at_length (P ++ [9 - Z.of_nat k]) b rest'
                  (1 + Z.of_nat k)) as S2.
    rewrite <- !app_assoc, length_app in S2. cbn [app List.length] in S2.
    rewrite S2.
    pose proof (IH (S k) (P ++ [9 - Z.of_nat k; 1 + Z.of_nat k]) rest') as F.
    rewrite <- !app_assoc in F. cbn [app] in F.
    rewrite F.
    + f_equal. f_equal. cbn [filled].
      rewrite Nat2Z.inj_succ.
      replace (Z.succ (Z.of_nat k)) with (Z.of_nat k + 1) by lia.
      replace (2 * S todo)%nat with (S (S (2 * todo))) by lia.
      reflexivity.
    + rewrite length_app. cbn [List.length]. lia.
    + lia.
    + lia.
Qed.

(** An array too short for the turns that are left is overrun. *)
Lemma fill_overruns (todo : nat) :
  forall (k : nat) (dt : list data_type),
    (1 <= todo)%nat ->
    (List.length dt < 2 * (k + todo))%nat ->
    2 * Z.of_nat (k + todo) <= INT_MAX ->
    fill todo (Z.of_nat k) dt = None.
Proof.
  induction todo as [ | todo IH]; intros k dt Htodo Hlen Hmax; [ lia | ].
  destruct (fill_turn k ltac:(lia)) as (E1 & E2 & E3 & E4 & E5).
  cbn [fill]. rewrite E2, E1, E3, E4, E5.
  destruct (store dt (Z.of_nat (2 * k)) (9 - Z.of_nat k)) as [dt1 | ] eqn:S1;
    [ | reflexivity ].
  pose proof (store_length _ _ _ _ S1) as L1.
  destruct (store dt1 (Z.of_nat (2 * k + 1)) (1 + Z.of_nat k))
    as [dt2 | ] eqn:S2; [ | reflexivity ].
  pose proof (store_length _ _ _ _ S2) as L2.
  destruct todo as [ | todo'].
  - exfalso.
    destruct (Z_le_gt_dec (Z.of_nat (List.length dt1)) (Z.of_nat (2 * k + 1)))
      as [Hout | Hin].
    + rewrite (store_outside _ _ _ Hout) in S2. discriminate S2.
    + lia.
  - apply IH; lia.
Qed.

(** X13.  For dims 2 or more and any point count that fits, the
    coordinating worker calls the builder with an array of
    [SIZE * DIMS] cells whose first [2 * SIZE] cells are the points
    [(9 - i, 1 + i)] for [i] from 0, two cells apart whatever the dims
    are; for dims 2 that is the whole array. *)
Theorem main_with_fills_pairs (SIZE' DIMS' : Z) :
  0 <= SIZE' -> 2 <= DIMS' -> SIZE' * DIMS' <= INT_MAX ->
  exists dt,
    main_with SIZE' DIMS' 0 = calls_generate_kd_tree (Some dt) SIZE' DIMS' /\
    List.length dt = Z.to_nat (SIZE' * DIMS') /\
    firstn (2 * Z.to_nat SIZE') dt = filled (Z.to_nat SIZE') 0 /\
    (DIMS' = 2 -> dt = filled (Z.to_nat SIZE') 0).
Proof.
  intros HS HD Hmax.
  assert (Hn : 0 <= SIZE' * DIMS') by nia.
  assert (En : int_mul SIZE' DIMS' = SIZE' * DIMS')
    by (unfold int_mul; apply wrap_small; int_range).
  unfold main_with. cbn [Z.eqb]. rewrite En.
  replace (SIZE' * DIMS' <? 0) with false by (symmetry; apply Z.ltb_ge; lia).
  set (cells := repeat 0 (Z.to_nat (SIZE' * DIMS'))).
  assert (Hcells : List.length cells = Z.to_nat (SIZE' * DIMS'))
    by apply repeat_length.
  assert (H2 : (2 * Z.to_nat SIZE' <= List.length cells)%nat).
  { rewrite Hcells. nia. }
  pose proof (fill_writes (Z.to_nat SIZE') 0 [] cells eq_refl H2
                ltac:(nia)) as F.
  cbn [app] in F. change (Z.of_nat 0) with 0 in F. rewrite F.
  eexists. split; [ reflexivity | ].
  split; [ | split ].
  - rewrite length_app, filled_length, length_skipn.
    unfold data_type in *. lia.
  - rewrite <- (filled_length (Z.to_nat SIZE') 0) at 1.
    rewrite <- (Nat.add_0_r (List.length (filled (Z.to_nat SIZE') 0))).
    rewrite firstn_app_2. cbn. apply app_nil_r.
  - intros ->. rewrite skipn_all2; [ apply app_nil_r | ].
    unfold data_type in *. rewrite Hcells. lia.
Qed.

Lemma main_with_fills_pairs_witness :
  exists dt,
    main_with 3 4 0 = calls_generate_kd_tree (Some dt) 3 4 /\
    List.length dt = Z.to_nat (3 * 4) /\
    firstn (2 * Z.to_nat 3) dt = filled (Z.to_nat 3) 0 /\
    (4 = 2 -> dt = filled (Z.to_nat 3) 0).
Proof.
  apply (main_with_fills_pairs 3 4); unfold INT_MAX; lia.
Defined.

(** X14.  With dims 0 or 1 and at least one point the loop of the
    coordinating worker stores outside its array: the loop steps by two
    cells a point whatever the dims are. *)
Theorem main_with_overruns_narrow_points (SIZE' DIMS' : Z) :
  1 <= SIZE' -> 2 * SIZE' <= INT_MAX -> 0 <= DIMS' <= 1 ->
  main_with SIZE' DIMS' 0 = undefined_store.
Proof.
  intros HS Hmax HD.
  assert (Hn : 0 <= SIZE' * DIMS' <= SIZE') by nia.
  assert (En : int_mul SIZE' DIMS' = SIZE' * DIMS')
    by (unfold int_mul; apply wrap_small; int_range).
  unfold main_with. cbn [Z.eqb]. rewrite En.
  replace (SIZE' * DIMS' <? 0) with false by (symmetry; apply Z.ltb_ge; lia).
  change 0 with (Z.of_nat 0) at 1.
  rewrite fill_overruns; [ reflexivity | lia | | lia ].
  rewrite repeat_length. lia.
Qed.

Lemma main_with_overruns_narrow_points_witness :
  main_with 6 1 0 = undefined_store.
Proof.
  apply (main_with_overruns_narrow_points 6 1); unfold INT_MAX; lia.
Defined.
